(** * TAV: true airspeed, headings and wind from three GPS ground velocities

    A shallow embedding of the code cells of [TAV.ipynb] and the properties
    of its functions [cartesian], [polar], [fromCompass], [toCompass], [mag]
    and [calculate].

    The notebook computes on NumPy [float64] scalars.  Its code is embedded
    once, over an interface [Scalar] of the operations it applies to them,
    and read at two instances:

    - [Ideal]: exact real arithmetic, the reading under which the algebraic
      statements ("up to floating-point tolerance") are exact equalities;
    - [Binary64]: IEEE 754 binary64 with its signed zeros, infinities and
      NaN, as the Standard Library's [SpecFloat] specifies it, the reading
      that decides what a division by zero returns. *)

From Stdlib Require Import Floats QArith Qreals.
From Stdlib Require Import Reals Lra Lia ZArith List Bool Factorial Machin.
Import ListNotations.

Set Implicit Arguments.

(** ** The scalar interface *)

(** The operations the notebook applies to a [float64]: Python's arithmetic
    operators and integer literals, and the NumPy functions it calls. *)
Class Scalar (T : Type) : Type := {
  lit : Z -> T;                (* an integer literal: 90, 360, 2 *)
  add : T -> T -> T;           (* x + y *)
  sub : T -> T -> T;           (* x - y *)
  mul : T -> T -> T;           (* x * y *)
  div : T -> T -> T;           (* x / y *)
  neg : T -> T;                (* -x *)
  pymod : T -> T -> T;         (* x % y *)
  pow2 : T -> T;               (* x ** 2 *)
  np_cos : T -> T;
  np_sin : T -> T;
  np_hypot : T -> T -> T;
  np_arctan2 : T -> T -> T;    (* np.arctan2(y, x) *)
  np_sqrt : T -> T;
  np_radians : T -> T;
  np_degrees : T -> T
}.

(** What a call does: it returns a value or raises. *)
Inductive pyexn : Type :=
  | ValueError.   (* unpacking a sequence of the wrong length *)

Inductive outcome (A : Type) : Type :=
  | Returns (a : A)
  | Raises (e : pyexn).

Arguments Returns {A} a.
Arguments Raises {A} e.

(** ** The notebook's code *)

Section Notebook.

Context {T : Type} {S : Scalar T}.

Definition vec : Type := (T * T)%type.

(** [np.subtract] on two pairs, and the unary minus of an array. *)
Definition subtract (a b : vec) : vec :=
  (sub (fst a) (fst b), sub (snd a) (snd b)).

Definition negative (a : vec) : vec := (neg (fst a), neg (snd a)).

Definition cartesian (rho theta : T) : vec :=
  let x := mul rho (np_cos theta) in
  let y := mul rho (np_sin theta) in
  (x, y).

Definition polar (v : vec) : T * T :=
  let '(x, y) := v in
  let rho := np_hypot x y in
  let theta := np_arctan2 y x in
  (rho, theta).

Definition fromCompass (speed track : T) : vec :=
  let theta := np_radians (sub (lit 90) track) in
  cartesian speed theta.

Definition toCompass (v : vec) : T * T :=
  let '(speed, theta) := polar v in
  let track := pymod (sub (lit 90) (np_degrees theta)) (lit 360) in
  (speed, track).

Definition mag (v : vec) : T :=
  np_sqrt (add (pow2 (fst v)) (pow2 (snd v))).

(** The values [calculate] binds, named as in the source. *)
Record solution : Type := {
  tas : T;
  w : vec;
  headings : list T
}.

(** The slope [mq = -p[0]/p[1]] and the intercept [bq = (p[1] - mq * p[0]) / 2]
    of the perpendicular bisector of a chord [p]; the source writes both
    formulas out for each of its two chords. *)
Definition slope (p : vec) : T := div (neg (fst p)) (snd p).

Definition intercept (p : vec) (mq : T) : T :=
  div (sub (snd p) (mul mq (fst p))) (lit 2).

(** The body of [calculate] once the three ground vectors are unpacked:
    first the circle center [a1 = [xO, yO]], then the results. *)
Definition circle_center (g1 g2 g3 : vec) : vec :=
  (* Chords *)
  let p1 := subtract g1 g2 in
  let p2 := subtract g1 g3 in
  (* Bisectors *)
  let mq1 := slope p1 in
  let mq2 := slope p2 in
  let bq1 := intercept p1 mq1 in
  let bq2 := intercept p2 mq2 in
  (* Circle center *)
  let xO := div (sub bq2 bq1) (sub mq1 mq2) in
  let yO := add (mul mq1 xO) bq1 in
  (xO, yO).

Definition solve (g1 g2 g3 : vec) : solution :=
  let a1 := circle_center g1 g2 g3 in
  let w := subtract g1 a1 in
  let a2 := subtract g2 w in
  let a3 := subtract g3 w in
  let tas := mag a1 in
  let headings := map (fun v => snd (toCompass v)) [a1; a2; a3] in
  {| tas := tas; w := w; headings := headings |}.

(** [g1, g2, g3 = (fromCompass(speed, track) for speed, track in data)]
    raises [ValueError] unless [data] holds exactly three observations. *)
Definition calculate (data : list (T * T)) : outcome solution :=
  match map (fun d => fromCompass (fst d) (snd d)) data with
  | [g1; g2; g3] => Returns (solve g1 g2 g3)
  | _ => Raises ValueError
  end.

(** The report cell: [windSpeed, windFrom = toCompass(-w)]. *)
Definition wind_report (r : solution) : T * T := toCompass (negative (w r)).

End Notebook.

(** ** Exact real arithmetic *)

Module Ideal.

Local Open Scope R_scope.

(** The two-argument arctangent: the angle in (-PI, PI] of the point
    [(x, y)], and 0 at the origin as C's [atan2] returns for [(+0, +0)]. *)
Definition arctan2 (y x : R) : R :=
  if Rlt_dec 0 x then atan (y / x)
  else if Rlt_dec x 0 then
    if Rle_dec 0 y then atan (y / x) + PI else atan (y / x) - PI
  else if Rlt_dec 0 y then PI / 2
  else if Rlt_dec y 0 then - (PI / 2)
  else 0.

(** Python's [%] on floats, whose result takes the sign of the divisor:
    [x - y * floor(x / y)]. *)
Definition Rpymod (x y : R) : R := x - y * IZR (Zfloor (x / y)).

(** The reading of the code in exact arithmetic.  [Rdiv] is total in Rocq
    ([x / 0] is [0]), which is not what a [float64] division by zero
    returns: every statement made in this reading comes with hypotheses (or
    on values) under which no divisor is zero, and divisions by zero are
    settled in [Binary64]. *)
#[export] Instance real_scalar : Scalar R := {|
  lit := IZR;
  add := Rplus;
  sub := Rminus;
  mul := Rmult;
  div := Rdiv;
  neg := Ropp;
  pymod := Rpymod;
  pow2 := fun x => x * x;
  np_cos := cos;
  np_sin := sin;
  np_hypot := fun x y => sqrt (x * x + y * y);
  np_arctan2 := arctan2;
  np_sqrt := sqrt;
  np_radians := fun x => x * (PI / 180);
  np_degrees := fun x => x * (180 / PI)
|}.

(** The code's formulas divide by the [y] component of each chord and by
    the difference of the two slopes.  [solvable] says that none of these
    divisors is zero: no chord is horizontal, and the three ground vectors
    are not on one line. *)
Definition cross (p q : R * R) : R := fst p * snd q - fst q * snd p.

Definition solvable (g1 g2 g3 : R * R) : Prop :=
  snd (subtract g1 g2) <> 0 /\
  snd (subtract g1 g3) <> 0 /\
  cross (subtract g1 g2) (subtract g1 g3) <> 0.


(** The ground vector of an observation [(speed, track)]. *)
Definition ground (d : R * R) : R * R := fromCompass (fst d) (snd d).


(** The unit vector of a compass bearing [b], in degrees: [x] points east
    and [y] north. *)
Definition bearing_vec (b : R) : R * R :=
  (sin (b * (PI / 180)), cos (b * (PI / 180))).




End Ideal.

(** ** IEEE 754 binary64 *)

Module Binary64.

(** A [float64] is a binary64 datum as [SpecFloat] describes it; [+], [-],
    [*], [/], [np.sqrt] and the unary minus are the correctly rounded
    operations of IEEE 754. *)
Definition float64 : Type := spec_float.

Definition is_nan (x : float64) : bool :=
  match x with S754_nan => true | _ => false end.

Definition is_zero (x : float64) : bool :=
  match x with S754_zero _ => true | _ => false end.

(** Infinite or NaN. *)
Definition nonfinite (x : float64) : bool :=
  match x with S754_infinity _ | S754_nan => true | _ => false end.

Definition sign_bit (x : float64) : bool :=
  match x with
  | S754_zero s | S754_infinity s | S754_finite s _ _ => s
  | S754_nan => false
  end.

Definition float64_eqb (x y : float64) : bool :=
  match x, y with
  | S754_zero s, S754_zero s' | S754_infinity s, S754_infinity s' =>
      Bool.eqb s s'
  | S754_nan, S754_nan => true
  | S754_finite s m e, S754_finite s' m' e' =>
      Bool.eqb s s' && Pos.eqb m m' && Z.eqb e e'
  | _, _ => false
  end.

(** A Python integer as a [float64]. *)
Definition of_int (z : Z) : float64 := binary_normalize prec emax z 0 false.

(** C's [fmod]: the exact remainder of the division truncated toward
    zero, with the sign of [x]. *)
Definition fmod (x y : float64) : float64 :=
  match x, y with
  | S754_nan, _ | _, S754_nan => S754_nan
  | S754_infinity _, _ => S754_nan
  | _, S754_zero _ => S754_nan
  | S754_zero _, _ => x
  | S754_finite _ _ _, S754_infinity _ => x
  | S754_finite sx mx ex, S754_finite _ my ey =>
      let ez := Z.min ex ey in
      let ax := Zpos (fst (shl_align mx ex ez)) in
      let ay := Zpos (fst (shl_align my ey ez)) in
      binary_normalize prec emax (cond_Zopp sx (Z.modulo ax ay)) ez sx
  end.

(** NumPy's [%] on [float64] ([npy_divmod]): [fmod], moved by the divisor
    when its sign differs from the divisor's. *)
Definition npy_remainder (a b : float64) : float64 :=
  let m := fmod a b in
  if is_zero b then m
  else if is_zero m then S754_zero (sign_bit b)
  else if Bool.eqb (SFltb b (S754_zero false)) (SFltb m (S754_zero false))
       then m
       else SF64add m b.

(** NumPy's [NPY_PI] and the factors of [np.radians] and [np.degrees]. *)
Definition NPY_PI : float64 := Prim2SF 0x1.921fb54442d18p+1%float.
Definition DEG2RAD : float64 := SF64div NPY_PI (of_int 180).
Definition RAD2DEG : float64 := SF64div (of_int 180) NPY_PI.

(** The functions of the C library the notebook reaches through NumPy.
    IEEE 754 does not fix their results, so they are a parameter. *)
Record Libm : Type := {
  c_cos : float64 -> float64;
  c_sin : float64 -> float64;
  c_hypot : float64 -> float64 -> float64;
  c_atan2 : float64 -> float64 -> float64
}.

(** The reading of the code in binary64.  [x ** 2] is taken as the
    correctly rounded product [x * x]; [np.radians] and [np.degrees]
    multiply by [DEG2RAD] and [RAD2DEG], as NumPy does. *)
Definition scalar (L : Libm) : Scalar float64 := {|
  lit := of_int;
  add := SF64add;
  sub := SF64sub;
  mul := SF64mul;
  div := SF64div;
  neg := SFopp;
  pymod := npy_remainder;
  pow2 := fun x => SF64mul x x;
  np_cos := c_cos L;
  np_sin := c_sin L;
  np_hypot := c_hypot L;
  np_arctan2 := c_atan2 L;
  np_sqrt := SF64sqrt;
  np_radians := fun x => SF64mul x DEG2RAD;
  np_degrees := fun x => SF64mul x RAD2DEG
|}.

(** *** Sample values of the C library

    The results glibc returns at the arguments the examples below reach;
    an argument that is not listed maps to NaN. *)

Definition lookup (tbl : list (float64 * float64)) (x : float64) : float64 :=
  match find (fun p => float64_eqb (fst p) x) tbl with
  | Some p => snd p
  | None => S754_nan
  end.

Definition lookup2 (tbl : list (float64 * float64 * float64))
    (x y : float64) : float64 :=
  match find (fun p => float64_eqb (fst (fst p)) x
                       && float64_eqb (snd (fst p)) y) tbl with
  | Some p => snd p
  | None => S754_nan
  end.

Definition cos_samples : list (float64 * float64) :=
  map (fun p => (Prim2SF (fst p), Prim2SF (snd p)))
    [ (0x0p+0, 0x1p+0);
      (0x1.921fb54442d18p+0, 0x1.1a62633145c07p-54);
      (-0x1.921fb54442d18p+0, 0x1.1a62633145c07p-54);
      (0x1.921fb54442d18p-1, 0x1.6a09e667f3bcdp-1);
      (-0x1.f6a7a2955385ep+1, -0x1.6a09e667f3bcep-1);
      (-0x1.c7bd892b3aa93p+0, -0x1.a9cd9ac4258f6p-3);
      (-0x1.af2a880c09110p+1, -0x1.f2e0a214e870fp-1);
      (0x1.38c35418a5bf6p+0, 0x1.5e3a8748a0bf7p-2) ]%float.

Definition sin_samples : list (float64 * float64) :=
  map (fun p => (Prim2SF (fst p), Prim2SF (snd p)))
    [ (0x0p+0, 0x0p+0);
      (0x1.921fb54442d18p+0, 0x1p+0);
      (-0x1.921fb54442d18p+0, -0x1p+0);
      (0x1.921fb54442d18p-1, 0x1.6a09e667f3bccp-1);
      (-0x1.f6a7a2955385ep+1, 0x1.6a09e667f3bccp-1);
      (-0x1.c7bd892b3aa93p+0, -0x1.f4cfc327a0080p-1);
      (-0x1.af2a880c09110p+1, 0x1.ccb3236cdc674p-3);
      (0x1.38c35418a5bf6p+0, 0x1.e11f642522d1bp-1) ]%float.

Definition hypot_samples : list (float64 * float64 * float64) :=
  map (fun p => (Prim2SF (fst (fst p)), Prim2SF (snd (fst p)), Prim2SF (snd p)))
    [ (0x0p+0, 0x0p+0, 0x0p+0);
      (-0x1.cd2b297d889bcp-54, 0x1p+0, 0x1p+0);
      (-0x1.5e1290ce63735p+5, -0x1.e9a626546b915p+6, 0x1.03ff3e78c3c68p+7);
      (-0x1.ef1f9de7dad74p+6, 0x1.3dc88dbd775c1p+5, 0x1.03ff3e78c3c67p+7);
      (0x1.a6417d51ef953p+4, 0x1.fd2a8501bc1c0p+6, 0x1.03ff3e78c3c67p+7);
      (-0x1.d4d880ac7ba3ap+3, 0x1.d0e8b8f75bbb8p+3, 0x1.4a229633271f8p+4) ]%float.

(** Listed as [(y, x, atan2(y, x))]. *)
Definition atan2_samples : list (float64 * float64 * float64) :=
  map (fun p => (Prim2SF (fst (fst p)), Prim2SF (snd (fst p)), Prim2SF (snd p)))
    [ (0x0p+0, 0x0p+0, 0x0p+0);
      (0x1p+0, -0x1.cd2b297d889bcp-54, 0x1.921fb54442d19p+0);
      (-0x1.e9a626546b915p+6, -0x1.5e1290ce63735p+5, -0x1.ea034e77ba3a8p+0);
      (0x1.3dc88dbd775c1p+5, -0x1.ef1f9de7dad74p+6, 0x1.6a603902a22b3p+1);
      (0x1.fd2a8501bc1c0p+6, 0x1.a6417d51ef953p+4, 0x1.5dca2075700bfp+0);
      (0x1.d0e8b8f75bbb8p+3, -0x1.d4d880ac7ba3ap+3, 0x1.2e21ed7d9fd62p+1) ]%float.

Definition glibc : Libm := {|
  c_cos := lookup cos_samples;
  c_sin := lookup sin_samples;
  c_hypot := lookup2 hypot_samples;
  c_atan2 := lookup2 atan2_samples
|}.

(** An observation given by two Python integers, as in the notebook's
    [data]. *)
Definition obs (speed track : Z) : float64 * float64 :=
  (of_int speed, of_int track).

(** C's Annex F for [cos] and [sin]: an infinite or NaN argument gives
    NaN. *)
Definition nan_outside_domain (L : Libm) : Prop :=
  forall x : float64,
    nonfinite x = true ->
    c_cos L x = S754_nan /\ c_sin L x = S754_nan.

(** A vector both of whose components are infinite or NaN. *)
Definition lost (g : float64 * float64) : Prop :=
  nonfinite (fst g) = true /\ nonfinite (snd g) = true.

End Binary64.

(** ** Rational enclosures

    Arithmetic expressions over real unknowns, and bounds for their values
    computed from rational bounds of the unknowns.  They serve to check the
    worked example of the notebook, whose inputs are sines and cosines. *)

Module Enclosure.

Inductive expr : Type :=
  | EVar (i : nat)
  | EInt (z : Z)
  | EAdd (a b : expr)
  | ESub (a b : expr)
  | EMul (a b : expr)
  | EDiv (a b : expr)
  | ENeg (a : expr).

Fixpoint eval (env : list R) (e : expr) : R :=
  match e with
  | EVar i => nth i env 0%R
  | EInt z => IZR z
  | EAdd a b => (eval env a + eval env b)%R
  | ESub a b => (eval env a - eval env b)%R
  | EMul a b => (eval env a * eval env b)%R
  | EDiv a b => (eval env a / eval env b)%R
  | ENeg a => (- eval env a)%R
  end.

Definition itv : Type := (Q * Q)%type.

Definition contains (i : itv) (x : R) : Prop :=
  (Q2R (fst i) <= x <= Q2R (snd i))%R.

Definition qmin (a b : Q) : Q := if Qle_bool a b then a else b.
Definition qmax (a b : Q) : Q := if Qle_bool a b then b else a.

(** Bounds are kept as multiples of 2^-80: a lower bound is rounded down
    and an upper bound is rounded up. *)
Definition scale : positive := Pos.pow 2 80.

Definition down (q : Q) : Q :=
  Z.div (Qnum q * Zpos scale) (Zpos (Qden q)) # scale.

Definition up (q : Q) : Q := - down (- q).

Definition iadd (i j : itv) : itv :=
  (down (fst i + fst j), up (snd i + snd j)).

Definition isub (i j : itv) : itv :=
  (down (fst i - snd j), up (snd i - fst j)).

Definition ineg (i : itv) : itv := (- snd i, - fst i).

Definition imul (i j : itv) : itv :=
  let ac := fst i * fst j in let ad := fst i * snd j in
  let bc := snd i * fst j in let bd := snd i * snd j in
  (down (qmin (qmin ac ad) (qmin bc bd)), up (qmax (qmax ac ad) (qmax bc bd))).

Definition iinv (i : itv) : option itv :=
  if negb (Qle_bool (fst i) 0) || negb (Qle_bool 0 (snd i))
  then Some (down (/ snd i), up (/ fst i))
  else None.

Definition lift2 (f : itv -> itv -> itv) (i j : option itv) : option itv :=
  match i, j with Some a, Some b => Some (f a b) | _, _ => None end.

Fixpoint bound (ienv : list itv) (e : expr) : option itv :=
  match e with
  | EVar i => nth_error ienv i
  | EInt z => Some (inject_Z z, inject_Z z)
  | EAdd a b => lift2 iadd (bound ienv a) (bound ienv b)
  | ESub a b => lift2 isub (bound ienv a) (bound ienv b)
  | EMul a b => lift2 imul (bound ienv a) (bound ienv b)
  | EDiv a b =>
      match bound ienv a, bound ienv b with
      | Some x, Some y => option_map (imul x) (iinv y)
      | _, _ => None
      end
  | ENeg a => option_map ineg (bound ienv a)
  end.

(** [is_positive ienv e]: the bounds of the unknowns put [e] above 0. *)
Definition is_positive (ienv : list itv) (e : expr) : bool :=
  match bound ienv e with
  | Some (lo, _) => negb (Qle_bool lo 0)
  | None => false
  end.

(** The code read over expressions: running [circle_center] at this
    instance writes out the expression it computes.  The functions of
    NumPy are not arithmetic and are left out (they are never reached by
    [subtract], [negative] and [circle_center]). *)
Definition expr_scalar : Scalar expr := {|
  lit := EInt;
  add := EAdd;
  sub := ESub;
  mul := EMul;
  div := EDiv;
  neg := ENeg;
  pymod := fun x _ => x;
  pow2 := fun x => EMul x x;
  np_cos := fun x => x;
  np_sin := fun x => x;
  np_hypot := fun x _ => x;
  np_arctan2 := fun x _ => x;
  np_sqrt := fun x => x;
  np_radians := fun x => x;
  np_degrees := fun x => x
|}.

Definition evalv (env : list R) (v : expr * expr) : R * R :=
  (eval env (fst v), eval env (snd v)).

(** *** Sines and cosines of small angles *)

(** Bounds of PI, from Machin's formula with arctangents of 1/3 and 1/7. *)
Definition pi_itv : itv :=
  (31415926535 # 10000000000, 31415926536 # 10000000000).

(** The partial sums of the sine and cosine series at the unknown 0, below
    and above. *)
Fixpoint epow (e : expr) (n : nat) : expr :=
  match n with
  | O => EInt 1
  | S n' => EMul e (epow e n')
  end.

Definition sin_below : expr :=
  ESub (EAdd (ESub (EVar 0) (EDiv (epow (EVar 0) 3) (EInt 6)))
             (EDiv (epow (EVar 0) 5) (EInt 120)))
       (EDiv (epow (EVar 0) 7) (EInt 5040)).
Definition sin_above : expr :=
  EAdd sin_below (EDiv (epow (EVar 0) 9) (EInt 362880)).

Definition cos_below : expr :=
  ESub (EAdd (ESub (EInt 1) (EDiv (epow (EVar 0) 2) (EInt 2)))
             (EDiv (epow (EVar 0) 4) (EInt 24)))
       (EDiv (epow (EVar 0) 6) (EInt 720)).
Definition cos_above : expr :=
  EAdd cos_below (EDiv (epow (EVar 0) 8) (EInt 40320)).

(** An angle of [c] hundredths of a degree, in radians, over the unknown
    PI. *)
Definition centidegrees (c : Z) : expr :=
  EDiv (EMul (EInt c) (EVar 0)) (EInt 18000).

(** Bounds of the sine and of the cosine of an angle of [c] hundredths of a
    degree, for an angle between 0 and 3/2 radians. *)
Definition trig_bounds (c : Z) : option (itv * itv) :=
  match bound [pi_itv] (centidegrees c) with
  | Some (lo, hi) =>
      if Qle_bool 0 lo && Qle_bool hi (3 # 2) then
        match bound [(lo, lo)] sin_below, bound [(hi, hi)] sin_above,
              bound [(hi, hi)] cos_below, bound [(lo, lo)] cos_above with
        | Some sl, Some sh, Some cl, Some ch =>
            Some ((fst sl, snd sh), (fst cl, snd ch))
        | _, _, _, _ => None
        end
      else None
  | None => None
  end.

(** The sines and cosines of a list of angles, and their bounds. *)
Definition trig_values (cs : list Z) : list R :=
  flat_map (fun c => [sin (IZR c * PI / 18000); cos (IZR c * PI / 18000)]%R) cs.

Fixpoint trig_itvs (cs : list Z) : option (list itv) :=
  match cs with
  | [] => Some []
  | c :: cs' =>
      match trig_bounds c, trig_itvs cs' with
      | Some (s, k), Some l => Some (s :: k :: l)
      | _, _ => None
      end
  end.

(** *** The worked example of the notebook

    The expressions [calculate] computes for the observations (140, 192),
    (112, 283), (120, 20), over the sines and cosines of reference angles
    below 45 degrees: those of the three tracks, and those of the bearings
    that bracket each result. *)

Definition angles : list Z :=
  [1200; 1300; 2000;          (* tracks 192 = 180 + 12, 283 = 270 + 13, 20 *)
   1965; 1975;                (* 199.65 and 199.75 = 180 + ... *)
   1775; 1785;                (* 287.75 and 287.85 = 270 + ... *)
   1165; 1175;                (* 11.65 and 11.75 *)
   4475; 4485]%Z.             (* 314.75 and 314.85 = 270 + ... *)

Definition angle_bounds : list itv :=
  Eval vm_compute in
    match trig_itvs angles with Some l => l | None => [] end.

(** The unit vector of the bearing [alpha], [180 + alpha] and
    [270 + alpha], for the angle [alpha] whose sine is the unknown [i] and
    whose cosine is the unknown [i + 1]. *)
Definition first_quadrant (i : nat) : expr * expr := (EVar i, EVar (S i)).
Definition third_quadrant (i : nat) : expr * expr :=
  (ENeg (EVar i), ENeg (EVar (S i))).
Definition fourth_quadrant (i : nat) : expr * expr :=
  (ENeg (EVar (S i)), EVar i).

Definition scaled (s : Z) (b : expr * expr) : expr * expr :=
  (EMul (EInt s) (fst b), EMul (EInt s) (snd b)).

Definition ge1 : expr * expr := scaled 140 (third_quadrant 0).
Definition ge2 : expr * expr := scaled 112 (fourth_quadrant 2).
Definition ge3 : expr * expr := scaled 120 (first_quadrant 4).

Definition a1e : expr * expr := circle_center (S := expr_scalar) ge1 ge2 ge3.
Definition we : expr * expr := subtract (S := expr_scalar) ge1 a1e.
Definition a2e : expr * expr := subtract (S := expr_scalar) ge2 we.
Definition a3e : expr * expr := subtract (S := expr_scalar) ge3 we.
Definition nwe : expr * expr := negative (S := expr_scalar) we.

(** [v] is clockwise of the bearing [b], counterclockwise of it. *)
Definition clockwise_of (v b : expr * expr) : expr :=
  ESub (EMul (fst v) (snd b)) (EMul (snd v) (fst b)).
Definition counterclockwise_of (v b : expr * expr) : expr :=
  ESub (EMul (snd v) (fst b)) (EMul (fst v) (snd b)).

Definition norm2 (v : expr * expr) : expr :=
  EAdd (EMul (fst v) (fst v)) (EMul (snd v) (snd v)).

(** [n / d < |v| < m / d], on the squares. *)
Definition longer_than (v : expr * expr) (n d : Z) : expr :=
  ESub (EMul (EInt (d * d)) (norm2 v)) (EInt (n * n)).
Definition shorter_than (v : expr * expr) (m d : Z) : expr :=
  ESub (EInt (m * m)) (EMul (EInt (d * d)) (norm2 v)).

End Enclosure.

(** * Properties in exact real arithmetic *)

Import Ideal.
Local Open Scope R_scope.

(** *** The instance, unfolded *)



Lemma toCompass_eq (x y : R) :
  toCompass (x, y) =
  (sqrt (x * x + y * y), Rpymod (90 - arctan2 y x * (180 / PI)) 360).
Proof. reflexivity. Qed.

Lemma mag_eq (x y : R) : mag (x, y) = sqrt (x * x + y * y).
Proof. reflexivity. Qed.

(** *** Norms *)


(** *** The two-argument arctangent *)

Lemma sum_sq_pos (x y : R) : (x, y) <> (0, 0) -> 0 < x * x + y * y.
Proof.
  intros H.
  destruct (Req_dec x 0) as [Hx|Hx]; destruct (Req_dec y 0) as [Hy|Hy];
    subst; try nra.
  now elim H.
Qed.

Lemma sqrt_sum_sq_factor (x y : R) :
  x <> 0 -> sqrt (x * x + y * y) = Rabs x * sqrt (1 + Rsqr (y / x)).
Proof.
  intros Hx.
  replace (x * x + y * y) with (Rsqr x * (1 + Rsqr (y / x)))
    by (unfold Rsqr; field; exact Hx).
  rewrite sqrt_mult_alt by apply Rle_0_sqr.
  now rewrite sqrt_Rsqr_abs.
Qed.

Lemma sqrt_one_plus_sq_pos (t : R) : 0 < sqrt (1 + Rsqr t).
Proof. apply sqrt_lt_R0. pose proof (Rle_0_sqr t). lra. Qed.

(** [arctan2 y x] is the angle of the point [(x, y)]: with the norm it
    gives the point back. *)
Lemma arctan2_polar (x y : R) :
  (x, y) <> (0, 0) ->
  x = sqrt (x * x + y * y) * cos (arctan2 y x) /\
  y = sqrt (x * x + y * y) * sin (arctan2 y x).
Proof.
  intros Hnz. unfold arctan2.
  destruct (Rlt_dec 0 x) as [Hx|Hx].
  - rewrite sqrt_sum_sq_factor by lra.
    rewrite Rabs_pos_eq by lra.
    rewrite cos_atan, sin_atan.
    pose proof (sqrt_one_plus_sq_pos (y / x)).
    split; field; lra.
  - destruct (Rlt_dec x 0) as [Hx'|Hx'].
    + rewrite sqrt_sum_sq_factor by lra.
      rewrite Rabs_left by lra.
      pose proof (sqrt_one_plus_sq_pos (y / x)).
      destruct (Rle_dec 0 y) as [Hy|Hy].
      * rewrite neg_cos, neg_sin, cos_atan, sin_atan.
        split; field; lra.
      * unfold Rminus.
        rewrite <- (cos_period _ 1), <- (sin_period (atan (y / x) + - PI) 1).
        replace (atan (y / x) + - PI + 2 * INR 1 * PI)
          with (atan (y / x) + PI) by (simpl; ring).
        rewrite neg_cos, neg_sin, cos_atan, sin_atan.
        split; field; lra.
    + assert (x = 0) by lra. subst x.
      replace (0 * 0 + y * y) with (Rsqr y) by (unfold Rsqr; ring).
      rewrite sqrt_Rsqr_abs.
      destruct (Rlt_dec 0 y) as [Hy|Hy].
      * rewrite cos_PI2, sin_PI2, Rabs_pos_eq by lra. lra.
      * destruct (Rlt_dec y 0) as [Hy'|Hy'].
        -- rewrite cos_neg, sin_neg, cos_PI2, sin_PI2, Rabs_left by lra. lra.
        -- assert (y = 0) by lra. subst y. now elim Hnz.
Qed.



(** *** Python's modulo *)

Lemma Rpymod_range (x y : R) : 0 < y -> 0 <= Rpymod x y < y.
Proof.
  intros Hy. unfold Rpymod.
  pose proof (Zfloor_bound (x / y)) as [H1 H2].
  assert (E : x = x / y * y) by (field; lra).
  split.
  - assert (y * IZR (Zfloor (x / y)) <= x / y * y) by nra. lra.
  - assert (x / y * y < y * (IZR (Zfloor (x / y)) + 1)) by nra. lra.
Qed.




(** *** Compass form of a vector given by its norm and angle *)



(** *** The circle through the three ground vectors *)

(** With non-horizontal chords the two slopes differ exactly when the
    ground vectors are not on one line. *)
Lemma slopes_differ (p1 p2 : R * R) :
  snd p1 <> 0 -> snd p2 <> 0 ->
  (- fst p1 / snd p1 - - fst p2 / snd p2 <> 0 <-> cross p1 p2 <> 0).
Proof.
  intros H1 H2. unfold cross.
  replace (- fst p1 / snd p1 - - fst p2 / snd p2)
    with (- (fst p1 * snd p2 - fst p2 * snd p1) / (snd p1 * snd p2))
    by (field; split; assumption).
  split; intros H E; apply H.
  - rewrite E. unfold Rdiv. ring.
  - assert (E' : - (fst p1 * snd p2 - fst p2 * snd p1) / (snd p1 * snd p2)
                 * (snd p1 * snd p2) = 0) by (rewrite E; ring).
    unfold Rdiv in E'. rewrite Rmult_assoc, Rinv_l in E'; [lra|].
    now apply Rmult_integral_contrapositive.
Qed.

(** [solvable] is the statement that the three divisors of
    [circle_center] are not zero. *)
Lemma solvable_divisors (g1 g2 g3 : R * R) :
  solvable g1 g2 g3 <->
  snd (subtract g1 g2) <> 0 /\
  snd (subtract g1 g3) <> 0 /\
  slope (subtract g1 g2) - slope (subtract g1 g3) <> 0.
Proof.
  unfold solvable.
  split; intros (H1 & H2 & H3); (split; [exact H1 | split; [exact H2 |]]).
  - exact (proj2 (slopes_differ _ _ H1 H2) H3).
  - exact (proj1 (slopes_differ _ _ H1 H2) H3).
Qed.



Lemma calculate_eq (d1 d2 d3 : R * R) :
  calculate [d1; d2; d3] = Returns (solve (ground d1) (ground d2) (ground d3)).
Proof. reflexivity. Qed.




(** *** Compass form of a ground vector *)

Lemma ground_eq (s t : R) :
  ground (s, t) =
  (s * cos ((90 - t) * (PI / 180)), s * sin ((90 - t) * (PI / 180))).
Proof. reflexivity. Qed.




(** *** No wind *)



(** *** Turning the three tracks by the same angle *)





Lemma fst_toCompass (v : R * R) : fst (toCompass v) = mag v.
Proof. now destruct v. Qed.







(** *** Exact values at the quarter turns *)









(** *** The zero vector *)



(** ** Soundness of the rational enclosures *)

Import Enclosure.

Lemma down_le (q : Q) : Q2R (down q) <= Q2R q.
Proof.
  apply Qle_Rle. destruct q as [n d]. unfold down, Qle. cbn [Qnum Qden].
  rewrite (Z.mul_comm (n * Zpos scale / Zpos d)).
  apply Z.mul_div_le. reflexivity.
Qed.

Lemma up_ge (q : Q) : Q2R q <= Q2R (up q).
Proof.
  unfold up. rewrite Q2R_opp.
  pose proof (down_le (- q)) as H. rewrite Q2R_opp in H. lra.
Qed.

Lemma rounded_sound (lo hi : Q) (x : R) :
  Q2R lo <= x <= Q2R hi -> Q2R (down lo) <= x <= Q2R (up hi).
Proof.
  intros [H1 H2]. pose proof (down_le lo). pose proof (up_ge hi). lra.
Qed.

Lemma qmin_l (a b : Q) : Q2R (qmin a b) <= Q2R a.
Proof.
  unfold qmin. destruct (Qle_bool a b) eqn:E; [lra|].
  apply Qle_Rle. apply Qlt_le_weak, Qnot_le_lt. intros H.
  apply Qle_bool_iff in H. congruence.
Qed.

Lemma qmin_r (a b : Q) : Q2R (qmin a b) <= Q2R b.
Proof.
  unfold qmin. destruct (Qle_bool a b) eqn:E; [|lra].
  now apply Qle_Rle, Qle_bool_iff.
Qed.

Lemma qmax_l (a b : Q) : Q2R a <= Q2R (qmax a b).
Proof.
  unfold qmax. destruct (Qle_bool a b) eqn:E; [|lra].
  now apply Qle_Rle, Qle_bool_iff.
Qed.

Lemma qmax_r (a b : Q) : Q2R b <= Q2R (qmax a b).
Proof.
  unfold qmax. destruct (Qle_bool a b) eqn:E; [lra|].
  apply Qle_Rle. apply Qlt_le_weak, Qnot_le_lt. intros H.
  apply Qle_bool_iff in H. congruence.
Qed.

Lemma mul_box (a b c d x y m M : R) :
  a <= x <= b -> c <= y <= d ->
  m <= a * c -> m <= a * d -> m <= b * c -> m <= b * d ->
  a * c <= M -> a * d <= M -> b * c <= M -> b * d <= M ->
  m <= x * y <= M.
Proof.
  intros Hx Hy. intros.
  destruct (Rle_dec 0 y) as [Hy0|Hy0].
  - assert (a * y <= x * y <= b * y) by nra.
    destruct (Rle_dec 0 a), (Rle_dec 0 b); split; nra.
  - assert (b * y <= x * y <= a * y) by nra.
    destruct (Rle_dec 0 a), (Rle_dec 0 b); split; nra.
Qed.

Lemma iadd_sound i j x y : contains i x -> contains j y -> contains (iadd i j) (x + y).
Proof.
  unfold contains, iadd. cbn [fst snd]. intros Hx Hy.
  apply rounded_sound. rewrite !Q2R_plus. lra.
Qed.

Lemma isub_sound i j x y : contains i x -> contains j y -> contains (isub i j) (x - y).
Proof.
  unfold contains, isub. cbn [fst snd]. intros Hx Hy.
  apply rounded_sound. rewrite !Q2R_minus. lra.
Qed.

Lemma ineg_sound i x : contains i x -> contains (ineg i) (- x).
Proof.
  unfold contains, ineg. cbn [fst snd]. rewrite !Q2R_opp. lra.
Qed.

Lemma imul_sound i j x y : contains i x -> contains j y -> contains (imul i j) (x * y).
Proof.
  unfold contains, imul. cbn [fst snd]. intros Hx Hy.
  apply rounded_sound.
  destruct i as [a b], j as [c d]. cbn [fst snd] in *.
  apply (mul_box Hx Hy); rewrite <- Q2R_mult.
  - eapply Rle_trans; [apply qmin_l | apply qmin_l].
  - eapply Rle_trans; [apply qmin_l | apply qmin_r].
  - eapply Rle_trans; [apply qmin_r | apply qmin_l].
  - eapply Rle_trans; [apply qmin_r | apply qmin_r].
  - eapply Rle_trans; [apply qmax_l | apply qmax_l].
  - eapply Rle_trans; [apply qmax_r | apply qmax_l].
  - eapply Rle_trans; [apply qmax_l | apply qmax_r].
  - eapply Rle_trans; [apply qmax_r | apply qmax_r].
Qed.

Lemma Q2R_zero : Q2R 0 = 0.
Proof. unfold Q2R. simpl. lra. Qed.

Lemma Qle_bool_false_lt (a b : Q) : Qle_bool a b = false -> Q2R b < Q2R a.
Proof.
  intros E. apply Qlt_Rlt, Qnot_le_lt. intros H.
  apply Qle_bool_iff in H. congruence.
Qed.

Lemma iinv_sound i j x : iinv i = Some j -> contains i x -> contains j (/ x).
Proof.
  unfold iinv, contains. destruct i as [c d]. cbn [fst snd].
  destruct (negb (Qle_bool c 0) || negb (Qle_bool 0 d)) eqn:E; [|discriminate].
  intros [= <-] [Hc Hd]. cbn [fst snd]. apply rounded_sound.
  apply orb_true_iff in E. destruct E as [E|E]; apply negb_true_iff in E;
    apply Qle_bool_false_lt in E; rewrite Q2R_zero in E.
  - rewrite !Q2R_inv.
    + split; apply Rinv_le_contravar; lra.
    + intros Hz. apply Qeq_eqR in Hz. rewrite Q2R_zero in Hz. lra.
    + intros Hz. apply Qeq_eqR in Hz. rewrite Q2R_zero in Hz. lra.
  - rewrite !Q2R_inv.
    + assert (/ - x <= / - Q2R d) by (apply Rinv_le_contravar; lra).
      assert (/ - Q2R c <= / - x) by (apply Rinv_le_contravar; lra).
      rewrite !Rinv_opp in *. lra.
    + intros Hz. apply Qeq_eqR in Hz. rewrite Q2R_zero in Hz. lra.
    + intros Hz. apply Qeq_eqR in Hz. rewrite Q2R_zero in Hz. lra.
Qed.

Lemma bound_sound (ienv : list itv) (env : list R) (e : expr) (i : itv) :
  Forall2 contains ienv env -> bound ienv e = Some i -> contains i (eval env e).
Proof.
  intros Henv. revert i.
  induction e as [n|z|a IHa b IHb|a IHa b IHb|a IHa b IHb|a IHa b IHb|a IHa];
    intros i; cbn [bound eval].
  - revert n. induction Henv as [|j x ienv env Hjx _ IH]; intros [|n]; cbn;
      try discriminate.
    + now intros [= <-].
    + apply IH.
  - intros [= <-]. unfold contains. cbn [fst snd].
    unfold Q2R, inject_Z. cbn. lra.
  - destruct (bound ienv a), (bound ienv b); try discriminate.
    intros [= <-]. now apply iadd_sound; [apply IHa | apply IHb].
  - destruct (bound ienv a), (bound ienv b); try discriminate.
    intros [= <-]. now apply isub_sound; [apply IHa | apply IHb].
  - destruct (bound ienv a), (bound ienv b); try discriminate.
    intros [= <-]. now apply imul_sound; [apply IHa | apply IHb].
  - destruct (bound ienv a) as [ia|], (bound ienv b) as [ib|]; try discriminate.
    destruct (iinv ib) as [ii|] eqn:E; [|discriminate].
    intros [= <-]. unfold Rdiv.
    apply imul_sound; [now apply IHa |]. eapply iinv_sound; eauto.
  - destruct (bound ienv a); try discriminate.
    intros [= <-]. now apply ineg_sound, IHa.
Qed.

(** ** Bounds of PI, sines and cosines *)

Lemma positive_sound (ienv : list itv) (env : list R) (e : expr) :
  Forall2 contains ienv env -> is_positive ienv e = true -> 0 < eval env e.
Proof.
  intros Henv. unfold is_positive.
  destruct (bound ienv e) as [[lo hi]|] eqn:E; [|discriminate].
  intros H. apply negb_true_iff, Qle_bool_false_lt in H.
  rewrite Q2R_zero in H.
  destruct (bound_sound e Henv E) as [Hlo _]. cbn [fst] in Hlo. lra.
Qed.

Lemma pi_itv_sound : contains pi_itv PI.
Proof.
  pose proof (PI_2_3_7_ineq 6) as H.
  unfold PI_2_3_7_tg, tg_alt, Ratan_seq in H. simpl in H.
  unfold contains, pi_itv, Q2R. cbn [fst snd Qnum Qden].
  split; lra.
Qed.

Lemma INR_fact (k : nat) (v : Z) :
  Z.of_nat (fact k) = v -> INR (fact k) = IZR v.
Proof. intros <-. apply INR_IZR_INZ. Qed.

Lemma sin_series_bounds (a : R) :
  0 <= a <= PI -> eval [a] sin_below <= sin a <= eval [a] sin_above.
Proof.
  intros [H0 H1]. pose proof (sin_bound a 1 H0 H1) as H.
  change (2 * 1 + 1)%nat with 3%nat in H.
  change (2 * (1 + 1))%nat with 4%nat in H.
  unfold sin_approx in H. cbn [sum_f_R0] in H. unfold sin_term in H.
  change (2 * 0 + 1)%nat with 1%nat in H.
  change (2 * 1 + 1)%nat with 3%nat in H.
  change (2 * 2 + 1)%nat with 5%nat in H.
  change (2 * 3 + 1)%nat with 7%nat in H.
  change (2 * 4 + 1)%nat with 9%nat in H.
  rewrite (@INR_fact 1 1), (@INR_fact 3 6), (@INR_fact 5 120),
    (@INR_fact 7 5040), (@INR_fact 9 362880) in H by (vm_compute; reflexivity).
  cbn [pow] in H. cbn. lra.
Qed.

Lemma cos_series_bounds (a : R) :
  - PI / 2 <= a <= PI / 2 -> eval [a] cos_below <= cos a <= eval [a] cos_above.
Proof.
  intros [H0 H1]. pose proof (cos_bound a 1 H0 H1) as H.
  change (2 * 1 + 1)%nat with 3%nat in H.
  change (2 * (1 + 1))%nat with 4%nat in H.
  unfold cos_approx in H. cbn [sum_f_R0] in H. unfold cos_term in H.
  change (2 * 0)%nat with 0%nat in H.
  change (2 * 1)%nat with 2%nat in H.
  change (2 * 2)%nat with 4%nat in H.
  change (2 * 3)%nat with 6%nat in H.
  change (2 * 4)%nat with 8%nat in H.
  rewrite (@INR_fact 0 1), (@INR_fact 2 2), (@INR_fact 4 24),
    (@INR_fact 6 720), (@INR_fact 8 40320) in H by (vm_compute; reflexivity).
  cbn [pow] in H. cbn. lra.
Qed.

Lemma point_contains (q : Q) : Forall2 contains [(q, q)] [Q2R q].
Proof. repeat constructor; cbn; lra. Qed.

Lemma Qle_bool_Rle (a b : Q) : Qle_bool a b = true -> Q2R a <= Q2R b.
Proof. intros H. now apply Qle_Rle, Qle_bool_iff. Qed.

Lemma trig_bounds_sound (c : Z) (s k : itv) :
  trig_bounds c = Some (s, k) ->
  contains s (sin (IZR c * PI / 18000)) /\
  contains k (cos (IZR c * PI / 18000)).
Proof.
  unfold trig_bounds.
  destruct (bound [pi_itv] (centidegrees c)) as [[lo hi]|] eqn:Ex; [|discriminate].
  destruct (Qle_bool 0 lo && Qle_bool hi (3 # 2)) eqn:Er; [|discriminate].
  destruct (bound [(lo, lo)] sin_below) as [sl|] eqn:E1; [|discriminate].
  destruct (bound [(hi, hi)] sin_above) as [sh|] eqn:E2; [|discriminate].
  destruct (bound [(hi, hi)] cos_below) as [cl|] eqn:E3; [|discriminate].
  destruct (bound [(lo, lo)] cos_above) as [ch|] eqn:E4; [|discriminate].
  intros [= <- <-].
  assert (Hpi : Forall2 contains [pi_itv] [PI])
    by (constructor; [apply pi_itv_sound | constructor]).
  pose proof (bound_sound _ Hpi Ex) as [Hlo Hhi]. cbn in Hlo, Hhi.
  apply andb_true_iff in Er. destruct Er as [R0 R1].
  apply Qle_bool_Rle in R0, R1. rewrite Q2R_zero in R0.
  replace (Q2R (3 # 2)) with (3 / 2) in R1 by (unfold Q2R; simpl; lra).
  pose proof PI2_3_2 as Hq.
  set (x := IZR c * PI / 18000) in *.
  pose proof (bound_sound _ (point_contains lo) E1) as [S1 _].
  pose proof (bound_sound _ (point_contains hi) E2) as [_ S2].
  pose proof (bound_sound _ (point_contains hi) E3) as [C1 _].
  pose proof (bound_sound _ (point_contains lo) E4) as [_ C2].
  destruct (sin_series_bounds (a := Q2R lo)) as [S1' _]; [lra|].
  destruct (sin_series_bounds (a := Q2R hi)) as [_ S2']; [lra|].
  destruct (cos_series_bounds (a := Q2R hi)) as [C1' _]; [lra|].
  destruct (cos_series_bounds (a := Q2R lo)) as [_ C2']; [lra|].
  assert (sin (Q2R lo) <= sin x) by (apply sin_incr_1; lra).
  assert (sin x <= sin (Q2R hi)) by (apply sin_incr_1; lra).
  assert (cos (Q2R hi) <= cos x) by (apply cos_decr_1; lra).
  assert (cos x <= cos (Q2R lo)) by (apply cos_decr_1; lra).
  unfold contains. cbn [fst snd]. lra.
Qed.

Lemma trig_itvs_sound (cs : list Z) (l : list itv) :
  trig_itvs cs = Some l -> Forall2 contains l (trig_values cs).
Proof.
  revert l. induction cs as [|c cs IH]; intros l; cbn [trig_itvs].
  - intros [= <-]. constructor.
  - destruct (trig_bounds c) as [[s k]|] eqn:E; [|discriminate].
    destruct (trig_itvs cs) as [l'|]; [|discriminate].
    intros [= <-]. destruct (trig_bounds_sound _ E).
    cbn. constructor; [assumption |]. constructor; [assumption |]. now apply IH.
Qed.

(** The expression [circle_center] writes out evaluates to the center. *)
Lemma eval_circle_center (env : list R) (g1 g2 g3 : expr * expr) :
  evalv env (circle_center (S := expr_scalar) g1 g2 g3) =
  circle_center (evalv env g1) (evalv env g2) (evalv env g3).
Proof. reflexivity. Qed.

Lemma eval_subtract (env : list R) (u v : expr * expr) :
  evalv env (subtract (S := expr_scalar) u v) =
  subtract (evalv env u) (evalv env v).
Proof. reflexivity. Qed.

Lemma eval_negative (env : list R) (u : expr * expr) :
  evalv env (negative (S := expr_scalar) u) = negative (evalv env u).
Proof. reflexivity. Qed.

(** ** Headings between two bearings *)

Lemma ground_bearing (s t : R) :
  ground (s, t) = (s * fst (bearing_vec t), s * snd (bearing_vec t)).
Proof.
  rewrite ground_eq. unfold bearing_vec. cbn [fst snd].
  replace ((90 - t) * (PI / 180)) with (PI / 2 - t * (PI / 180)) by field.
  now rewrite cos_shift, sin_shift.
Qed.

Lemma turns_back (x : R) (n : nat) :
  cos (x - 2 * INR n * PI) = cos x /\ sin (x - 2 * INR n * PI) = sin x.
Proof.
  split.
  - rewrite <- (cos_period (x - 2 * INR n * PI) n). f_equal. ring.
  - rewrite <- (sin_period (x - 2 * INR n * PI) n). f_equal. ring.
Qed.

Lemma whole_turns (x : R) (k : Z) :
  cos (x + 2 * IZR k * PI) = cos x /\ sin (x + 2 * IZR k * PI) = sin x.
Proof.
  destruct (Z_le_gt_dec 0 k) as [Hk|Hk].
  - rewrite <- (Z2Nat.id k Hk), <- INR_IZR_INZ.
    split; [apply cos_period | apply sin_period].
  - replace (x + 2 * IZR k * PI) with (x - 2 * IZR (- k) * PI)
      by (rewrite opp_IZR; ring).
    rewrite <- (Z2Nat.id (- k)) by lia. rewrite <- INR_IZR_INZ.
    apply turns_back.
Qed.

Lemma mag_pos (v : R * R) : v <> (0, 0) -> 0 < mag v.
Proof.
  destruct v as [x y]. intros H. rewrite mag_eq.
  apply sqrt_lt_R0. now apply sum_sq_pos.
Qed.

(** A non-zero vector is its norm times the unit vector of its bearing. *)
Lemma toCompass_bearing_vec (v : R * R) :
  v <> (0, 0) ->
  let h := snd (toCompass v) in
  v = (mag v * fst (bearing_vec h), mag v * snd (bearing_vec h)).
Proof.
  destruct v as [x y]. intros Hnz. cbv zeta.
  destruct (arctan2_polar Hnz) as [Hx Hy].
  rewrite toCompass_eq, mag_eq. cbn [fst snd]. unfold bearing_vec. cbn [fst snd].
  set (r := sqrt (x * x + y * y)) in *. set (phi := arctan2 y x) in *.
  pose proof PI_RGT_0 as Hpi.
  unfold Rpymod.
  set (k := Zfloor ((90 - phi * (180 / PI)) / 360)).
  replace ((90 - phi * (180 / PI) - 360 * IZR k) * (PI / 180))
    with (PI / 2 - phi + 2 * IZR (- k) * PI)
    by (rewrite opp_IZR; field; lra).
  destruct (whole_turns (PI / 2 - phi) (- k)) as [-> ->].
  rewrite sin_shift, cos_shift. now rewrite <- Hx, <- Hy.
Qed.

Lemma sin_pos_range (x : R) :
  - (2 * PI) <= x <= 2 * PI -> 0 < sin x ->
  0 < x < PI \/ - (2 * PI) < x < - PI.
Proof.
  intros [H1 H2] Hs. pose proof PI_RGT_0 as Hpi.
  destruct (Rle_dec x (- PI)) as [Ha|Ha].
  - right. split.
    + destruct H1 as [H1|H1]; [exact H1 |].
      rewrite <- H1, sin_neg, sin_2PI in Hs. lra.
    + destruct Ha as [Ha|Ha]; [exact Ha |].
      rewrite Ha, sin_neg, sin_PI in Hs. lra.
  - destruct (Rle_dec x 0) as [Hb|Hb].
    + destruct Hb as [Hb|Hb].
      * assert (sin x < 0) by (apply sin_lt_0_var; lra). lra.
      * rewrite Hb, sin_0 in Hs. lra.
    + left. split; [lra |].
      destruct (Rlt_dec x PI) as [Hc|Hc]; [exact Hc |].
      pose proof (sin_le_0 x). lra.
Qed.

(** The heading [toCompass] returns for [v] is between the bearings [lo]
    and [hi] when [v] is to the right of the one and to the left of the
    other. *)
Lemma heading_between (v : R * R) (lo hi : R) :
  0 <= lo -> lo < hi -> hi <= 360 -> hi - lo < 180 ->
  0 < fst v * snd (bearing_vec lo) - snd v * fst (bearing_vec lo) ->
  0 < snd v * fst (bearing_vec hi) - fst v * snd (bearing_vec hi) ->
  lo < snd (toCompass v) < hi.
Proof.
  intros H0 Hlh H360 Hw C1 C2.
  assert (Hnz : v <> (0, 0)).
  { intros ->. cbn [fst snd] in C1. lra. }
  pose proof (toCompass_bearing_vec Hnz) as E. cbv zeta in E.
  pose proof (mag_pos Hnz) as Hr.
  assert (Hh : 0 <= snd (toCompass v) < 360).
  { destruct v as [x y]. rewrite toCompass_eq. cbn [snd].
    apply Rpymod_range. lra. }
  set (h := snd (toCompass v)) in *. set (r := mag v) in *.
  rewrite E in C1, C2. unfold bearing_vec in C1, C2. cbn [fst snd] in C1, C2.
  pose proof PI_RGT_0 as Hpi.
  set (u := PI / 180) in *.
  assert (Hu : 0 < u) by (unfold u; lra).
  assert (T : 360 * u = 2 * PI) by (unfold u; field).
  assert (T' : 180 * u = PI) by (unfold u; field).
  clearbody h r u. clear E.
  assert (S1 : 0 < sin (h * u - lo * u)).
  { rewrite sin_minus.
    apply Rmult_lt_reg_l with r; [exact Hr |]. rewrite Rmult_0_r.
    rewrite Rmult_minus_distr_l, <- !Rmult_assoc. exact C1. }
  assert (S2 : 0 < sin (hi * u - h * u)).
  { rewrite sin_minus.
    apply Rmult_lt_reg_l with r; [exact Hr |]. rewrite Rmult_0_r.
    rewrite Rmult_minus_distr_l, <- !Rmult_assoc.
    replace (r * sin (hi * u) * cos (h * u)) with (r * cos (h * u) * sin (hi * u))
      by ring.
    replace (r * cos (hi * u) * sin (h * u)) with (r * sin (h * u) * cos (hi * u))
      by ring.
    exact C2. }
  assert (Bh : 0 <= h * u /\ h * u < 2 * PI) by (split; nra).
  assert (Bl : 0 <= lo * u) by nra.
  assert (Bhi : hi * u <= 2 * PI) by nra.
  assert (Blh : lo * u < hi * u) by nra.
  assert (Bw : hi * u - lo * u < PI) by nra.
  apply sin_pos_range in S1; [| lra].
  apply sin_pos_range in S2; [| lra].
  assert (L : lo * u < h * u < hi * u)
    by (destruct S1 as [S1|S1], S2 as [S2|S2]; lra).
  split; apply Rmult_lt_reg_r with u; lra.
Qed.

Lemma sqrt_between (lo hi s : R) :
  0 <= lo -> 0 < hi -> lo * lo < s -> s < hi * hi -> lo < sqrt s < hi.
Proof.
  intros Hlo Hhi H1 H2. split.
  - rewrite <- (sqrt_square lo) by exact Hlo. apply sqrt_lt_1_alt. nra.
  - rewrite <- (sqrt_square hi) by lra. apply sqrt_lt_1_alt. nra.
Qed.

(** ** The worked example *)

Lemma bearing_vec_first (c : Z) :
  bearing_vec (IZR c / 100) =
  (sin (IZR c * PI / 18000), cos (IZR c * PI / 18000)).
Proof.
  unfold bearing_vec.
  replace (IZR c / 100 * (PI / 180)) with (IZR c * PI / 18000) by field.
  reflexivity.
Qed.

Lemma bearing_vec_third (c : Z) :
  bearing_vec (180 + IZR c / 100) =
  (- sin (IZR c * PI / 18000), - cos (IZR c * PI / 18000)).
Proof.
  unfold bearing_vec.
  replace ((180 + IZR c / 100) * (PI / 180)) with (IZR c * PI / 18000 + PI)
    by field.
  now rewrite neg_sin, neg_cos.
Qed.

Lemma bearing_vec_fourth (c : Z) :
  bearing_vec (270 + IZR c / 100) =
  (- cos (IZR c * PI / 18000), sin (IZR c * PI / 18000)).
Proof.
  unfold bearing_vec.
  replace ((270 + IZR c / 100) * (PI / 180))
    with (IZR c * PI / 18000 + 3 * (PI / 2)) by field.
  rewrite sin_plus, cos_plus, sin_3PI2, cos_3PI2. f_equal; ring.
Qed.

Lemma angle_bounds_sound : Forall2 contains angle_bounds (trig_values angles).
Proof. apply trig_itvs_sound. vm_compute. reflexivity. Qed.

Lemma solve_eval (env : list R) (g1 g2 g3 : expr * expr) :
  let a1 := circle_center (S := expr_scalar) g1 g2 g3 in
  let w' := subtract (S := expr_scalar) g1 a1 in
  let a2 := subtract (S := expr_scalar) g2 w' in
  let a3 := subtract (S := expr_scalar) g3 w' in
  solve (evalv env g1) (evalv env g2) (evalv env g3) =
  {| tas := mag (evalv env a1);
     w := evalv env w';
     headings := [snd (toCompass (evalv env a1));
                  snd (toCompass (evalv env a2));
                  snd (toCompass (evalv env a3))] |}.
Proof. reflexivity. Qed.

Lemma example_ground :
  let env := trig_values angles in
  ground (140, 192) = evalv env ge1 /\
  ground (112, 283) = evalv env ge2 /\
  ground (120, 20) = evalv env ge3.
Proof.
  cbv zeta.
  replace (ground (140, 192)) with (ground (140, 180 + IZR 1200 / 100))
    by (do 2 f_equal; lra).
  replace (ground (112, 283)) with (ground (112, 270 + IZR 1300 / 100))
    by (do 2 f_equal; lra).
  replace (ground (120, 20)) with (ground (120, IZR 2000 / 100))
    by (do 2 f_equal; lra).
  rewrite !ground_bearing.
  rewrite bearing_vec_third, bearing_vec_fourth, bearing_vec_first.
  split; [reflexivity |]. split; reflexivity.
Qed.

Lemma example_positive (e : expr) :
  is_positive angle_bounds e = true -> 0 < eval (trig_values angles) e.
Proof. apply positive_sound, angle_bounds_sound. Qed.

Lemma example_heading (v b b' : expr * expr) (lo hi : R) :
  0 <= lo -> lo < hi -> hi <= 360 -> hi - lo < 180 ->
  bearing_vec lo = evalv (trig_values angles) b ->
  bearing_vec hi = evalv (trig_values angles) b' ->
  is_positive angle_bounds (clockwise_of v b) = true ->
  is_positive angle_bounds (counterclockwise_of v b') = true ->
  lo < snd (toCompass (evalv (trig_values angles) v)) < hi.
Proof.
  intros H0 H1 H2 H3 Eb Eb' P P'.
  apply heading_between; try assumption.
  - rewrite Eb. exact (example_positive _ P).
  - rewrite Eb'. exact (example_positive _ P').
Qed.

Lemma example_length (v : expr * expr) (n m d : Z) :
  (0 <= n)%Z -> (0 < m)%Z -> (0 < d)%Z ->
  is_positive angle_bounds (longer_than v n d) = true ->
  is_positive angle_bounds (shorter_than v m d) = true ->
  IZR n / IZR d < mag (evalv (trig_values angles) v) < IZR m / IZR d.
Proof.
  intros Hn Hm Hd P P'.
  apply example_positive in P, P'.
  unfold longer_than, shorter_than in P, P'. cbn [eval] in P, P'.
  rewrite !mult_IZR in P, P'.
  apply IZR_le in Hn. apply IZR_lt in Hm, Hd.
  set (s := eval (trig_values angles) (norm2 v)) in *.
  assert (0 < / IZR d) by now apply Rinv_0_lt_compat.
  unfold mag, evalv. cbn [fst snd np_sqrt add pow2 real_scalar].
  change (eval (trig_values angles) (fst v) * eval (trig_values angles) (fst v)
          + eval (trig_values angles) (snd v) * eval (trig_values angles) (snd v))
    with s.
  apply sqrt_between.
  - apply Rmult_le_pos; lra.
  - apply Rmult_lt_0_compat; lra.
  - apply Rmult_lt_reg_r with (IZR d * IZR d); [nra |].
    replace (IZR n / IZR d * (IZR n / IZR d) * (IZR d * IZR d))
      with (IZR n * IZR n) by (field; lra).
    lra.
  - apply Rmult_lt_reg_r with (IZR d * IZR d); [nra |].
    replace (IZR m / IZR d * (IZR m / IZR d) * (IZR d * IZR d))
      with (IZR m * IZR m) by (field; lra).
    lra.
Qed.

(** * Properties in binary64 *)

Import Binary64.
Local Close Scope R_scope.

Abbreviation NaN := S754_nan.

(** ** NaN is absorbing *)

Lemma add_nan_l (y : float64) : SF64add NaN y = NaN.
Proof. reflexivity. Qed.

Lemma add_nan_r (x : float64) : SF64add x NaN = NaN.
Proof. now destruct x. Qed.

Lemma sub_nan_l (y : float64) : SF64sub NaN y = NaN.
Proof. reflexivity. Qed.

Lemma sub_nan_r (x : float64) : SF64sub x NaN = NaN.
Proof. now destruct x. Qed.

Lemma mul_nan_l (y : float64) : SF64mul NaN y = NaN.
Proof. reflexivity. Qed.

Lemma mul_nan_r (x : float64) : SF64mul x NaN = NaN.
Proof. now destruct x. Qed.

Lemma div_nan_l (y : float64) : SF64div NaN y = NaN.
Proof. reflexivity. Qed.

Lemma div_nan_r (x : float64) : SF64div x NaN = NaN.
Proof. now destruct x. Qed.

Lemma sqrt_nan : SF64sqrt NaN = NaN.
Proof. reflexivity. Qed.

Create Rewrite HintDb nan_db.
#[local] Hint Rewrite add_nan_l add_nan_r sub_nan_l sub_nan_r
  mul_nan_l mul_nan_r div_nan_l div_nan_r sqrt_nan : nan_db.

(** ** Differences and quotients that cannot be finite *)

(** [x - x] is [+0] for a finite [x] and NaN otherwise. *)
Lemma sub_diag (x : float64) :
  SF64sub x x = S754_zero false \/ SF64sub x x = NaN.
Proof.
  destruct x as [s|s| |s m e].
  - left. now destruct s.
  - right. now destruct s.
  - now right.
  - left. unfold SF64sub, SFsub.
    rewrite Z.sub_diag. reflexivity.
Qed.

Lemma zero_or_nan_div (x y : float64) :
  (x = S754_zero false \/ x = S754_zero true \/ x = NaN) ->
  (y = S754_zero false \/ y = NaN) ->
  SF64div x y = NaN.
Proof.
  intros [-> | [-> | ->]] [-> | ->]; reflexivity.
Qed.

(** The slope of a chord between two equal vectors. *)
Lemma slope_of_null_chord (x y : float64) :
  SF64div (SFopp (SF64sub x x)) (SF64sub y y) = NaN.
Proof.
  apply zero_or_nan_div.
  - destruct (sub_diag x) as [-> | ->]; cbn; auto.
  - apply sub_diag.
Qed.

Lemma div_by_zero_nonfinite (x y : float64) :
  is_zero y = true \/ is_nan y = true -> nonfinite (SF64div x y) = true.
Proof.
  intros [H | H]; destruct y; try discriminate; destruct x; reflexivity.
Qed.

Lemma mul_nonfinite_l (x y : float64) :
  nonfinite x = true -> nonfinite (SF64mul x y) = true.
Proof. destruct x; try discriminate; destruct y; reflexivity. Qed.

Lemma mul_nonfinite_r (x y : float64) :
  nonfinite y = true -> nonfinite (SF64mul x y) = true.
Proof. destruct y; try discriminate; destruct x; reflexivity. Qed.

Lemma add_nonfinite_l (x y : float64) :
  nonfinite x = true -> nonfinite (SF64add x y) = true.
Proof.
  destruct x as [|s| |]; try discriminate; destruct y as [|s'| |];
    try reflexivity; destruct s, s'; reflexivity.
Qed.

Lemma sqrt_nonfinite (x : float64) :
  nonfinite x = true -> nonfinite (SF64sqrt x) = true.
Proof. destruct x as [|s| |]; try discriminate; try reflexivity. now destruct s. Qed.

Lemma sub_diag_zero_or_nan (x : float64) :
  is_zero (SF64sub x x) = true \/ is_nan (SF64sub x x) = true.
Proof. destruct (sub_diag x) as [-> | ->]; auto. Qed.

(** ** What [calculate] returns when a divisor is zero *)

Section DegenerateInput.

Variable L : Libm.

Ltac unfold_solve :=
  unfold solve, circle_center, slope, intercept, subtract, mag;
  cbn [fst snd tas w headings scalar sub div mul add neg pow2 np_sqrt lit].

(** Equal first and second ground vectors. *)
Lemma solve_same_12 (g g3 : float64 * float64) :
  let r := solve (S := scalar L) g g g3 in
  tas r = NaN /\ w r = (NaN, NaN).
Proof.
  destruct g as [x y], g3 as [x3 y3]. unfold_solve.
  rewrite slope_of_null_chord. autorewrite with nan_db. now split.
Qed.

(** Equal first and third ground vectors. *)
Lemma solve_same_13 (g g2 : float64 * float64) :
  let r := solve (S := scalar L) g g2 g in
  tas r = NaN /\ w r = (NaN, NaN).
Proof.
  destruct g as [x y], g2 as [x2 y2]. unfold_solve.
  rewrite slope_of_null_chord. autorewrite with nan_db. now split.
Qed.

(** Equal second and third ground vectors: the two chords are the same. *)
Lemma solve_same_23 (g1 g : float64 * float64) :
  let r := solve (S := scalar L) g1 g g in
  tas r = NaN /\ w r = (NaN, NaN).
Proof.
  destruct g1 as [x1 y1], g as [x y]. unfold_solve.
  match goal with
  | |- context [SF64div (SF64sub ?b ?b) (SF64sub ?m ?m)] =>
      rewrite (zero_or_nan_div (x := SF64sub b b) (y := SF64sub m m))
  end.
  - autorewrite with nan_db. now split.
  - destruct (sub_diag
      (SF64div (SF64sub (SF64sub y1 y)
         (SF64mul (SF64div (SFopp (SF64sub x1 x)) (SF64sub y1 y)) (SF64sub x1 x)))
         (of_int 2))) as [-> | ->]; auto.
  - apply sub_diag.
Qed.

(** Equal slopes: the center's [x] is a quotient by zero. *)
Lemma solve_equal_slopes (g1 g2 g3 : float64 * float64) :
  slope (S := scalar L) (subtract (S := scalar L) g1 g2) =
  slope (S := scalar L) (subtract (S := scalar L) g1 g3) ->
  nonfinite (tas (solve (S := scalar L) g1 g2 g3)) = true.
Proof.
  destruct g1 as [x1 y1], g2 as [x2 y2], g3 as [x3 y3]. unfold_solve.
  intros ->.
  apply sqrt_nonfinite, add_nonfinite_l, mul_nonfinite_l.
  apply div_by_zero_nonfinite, sub_diag_zero_or_nan.
Qed.

(** A horizontal chord: the first two ground vectors are (2, 0) and (1, 0).
    The slope of its bisector is [-1 / 0], and the center is NaN whatever the
    third vector is. *)
Lemma sub_pinf_r (x : float64) :
  SF64sub x (S754_infinity false) = S754_infinity true \/
  SF64sub x (S754_infinity false) = NaN.
Proof. destruct x as [s|s| |s m e]; try destruct s; auto. Qed.

Lemma sub_ninf_l (y : float64) :
  SF64sub (S754_infinity true) y = S754_infinity true \/
  SF64sub (S754_infinity true) y = NaN.
Proof. destruct y as [s|s| |s m e]; try destruct s; auto. Qed.

Lemma solve_horizontal_chord (g3 : float64 * float64) :
  let r := solve (S := scalar L) (of_int 2, of_int 0) (of_int 1, of_int 0) g3 in
  tas r = NaN /\ w r = (NaN, NaN).
Proof.
  destruct g3 as [x3 y3]. unfold_solve.
  change (SF64div (SFopp (SF64sub (of_int 2) (of_int 1)))
            (SF64sub (of_int 0) (of_int 0)))
    with (S754_infinity true).
  change (SF64div
            (SF64sub (SF64sub (of_int 0) (of_int 0))
               (SF64mul (S754_infinity true) (SF64sub (of_int 2) (of_int 1))))
            (of_int 2))
    with (S754_infinity false).
  match goal with
  | |- context [SF64div (SF64sub ?b (S754_infinity false))
                        (SF64sub (S754_infinity true) ?m)] =>
      assert (E : SF64div (SF64sub b (S754_infinity false))
                          (SF64sub (S754_infinity true) m) = NaN)
        by (destruct (sub_pinf_r b) as [-> | ->],
                     (sub_ninf_l m) as [-> | ->]; reflexivity);
      rewrite E
  end.
  autorewrite with nan_db. now split.
Qed.

End DegenerateInput.

(** The only failure [calculate] has: unpacking [data] when it does not
    hold three observations. *)
Lemma calculate_wrong_length (L : Libm) (data : list (float64 * float64)) :
  length data <> 3%nat -> calculate (S := scalar L) data = Raises ValueError.
Proof.
  intros H. unfold calculate.
  destruct data as [|d1 [|d2 [|d3 [|d4 data]]]]; cbn [map]; try reflexivity.
  now elim H.
Qed.

(** With any C library whose [cos] and [sin] are exact at [+0], as C's
    Annex F requires, two observations on track 90 at speeds 2 and 1 make
    [calculate] return NaN, whatever the third observation is. *)
Lemma horizontal_chord_nan (L : Libm) (d3 : float64 * float64) :
  c_cos L (of_int 0) = of_int 1 ->
  c_sin L (of_int 0) = of_int 0 ->
  exists r,
    calculate (S := scalar L) [obs 2 90; obs 1 90; d3] = Returns r /\
    tas r = NaN /\ w r = (NaN, NaN).
Proof.
  intros Hc Hs. eexists. split; [reflexivity |].
  assert (E : forall s : Z,
             fromCompass (S := scalar L) (of_int s) (of_int 90)
             = (SF64mul (of_int s) (of_int 1), SF64mul (of_int s) (of_int 0))).
  { intros s. unfold fromCompass, cartesian.
    cbn [scalar np_radians np_cos np_sin sub mul lit].
    change (SF64mul (SF64sub (of_int 90) (of_int 90)) DEG2RAD) with (of_int 0).
    now rewrite Hc, Hs. }
  cbn [map fst snd obs]. rewrite !E.
  change (SF64mul (of_int 2) (of_int 1)) with (of_int 2).
  change (SF64mul (of_int 2) (of_int 0)) with (of_int 0).
  change (SF64mul (of_int 1) (of_int 1)) with (of_int 1).
  change (SF64mul (of_int 1) (of_int 0)) with (of_int 0).
  apply solve_horizontal_chord.
Qed.

(** Whenever [atan2] returns one of the two [float64] just above the
    rounded quarter turn, the bearing is 360.0, whatever the vector and the
    C library are.  For the vector (-2.7e-16, 1) the angle is
    PI/2 + 2.7e-16, and these are the two [float64] within one unit in the
    last place of it. *)
Lemma bearing_360_above_quarter_turn (L : Libm) (v : float64 * float64) :
  c_atan2 L (snd v) (fst v) = Prim2SF 0x1.921fb54442d19p+0%float \/
  c_atan2 L (snd v) (fst v) = Prim2SF 0x1.921fb54442d1ap+0%float ->
  snd (toCompass (S := scalar L) v) = of_int 360.
Proof.
  destruct v as [x y]. unfold toCompass, polar.
  cbn [fst snd scalar np_hypot np_arctan2 np_degrees pymod sub lit].
  intros [-> | ->]; vm_compute; reflexivity.
Qed.

(** * The claims *)

Local Open Scope R_scope.

(** ** C1 *)

(** The same observations in binary64, with the values glibc returns for
    the sines, cosines, norms and arctangents reached: the results are the
    ones the notebook prints as "TAS: 130", "199.7", "287.8", "11.7" and
    "Wind: 314.8 at 20.6". *)
Lemma worked_example_binary64 :
  exists r,
    calculate (S := scalar glibc) [obs 140 192; obs 112 283; obs 120 20]
    = Returns r /\
    (* 129.99852349653085 *)
    tas r = Prim2SF 0x1.03ff3e78c3c67p+7%float /\
    (* 199.67059374146783, 287.792125444477, 11.713025864830456 *)
    headings r = map Prim2SF [0x1.8f57581019036p+7; 0x1.1fcac8bbae5bbp+8;
                              0x1.76d11b9e54c4p+3]%float /\
    (* 20.63344402295658, 314.7584466666683 *)
    wind_report (S := scalar glibc) r
    = (Prim2SF 0x1.4a229633271f8p+4%float, Prim2SF 0x1.3ac2298f8d19cp+8%float).
Proof.
  eexists. split; [reflexivity |]. vm_compute. repeat split.
Qed.

(** C1: in exact arithmetic, for the observations (140, 192), (112, 283),
    (120, 20) [calculate] returns a true airspeed that rounds to 130,
    headings within 0.05 of 199.7, 287.8 and 11.7 degrees, and a wind
    within 0.05 of "from 314.8 degrees at 20.6". *)
Theorem worked_example :
  exists r,
    calculate [(140, 192); (112, 283); (120, 20)] = Returns r /\
    129.5 <= tas r < 130.5 /\
    (exists h1 h2 h3,
       headings r = [h1; h2; h3] /\
       Rabs (h1 - 199.7) < 0.05 /\
       Rabs (h2 - 287.8) < 0.05 /\
       Rabs (h3 - 11.7) < 0.05) /\
    Rabs (snd (wind_report r) - 314.8) < 0.05 /\
    Rabs (fst (wind_report r) - 20.6) < 0.05.
Proof.
  eexists. split; [apply calculate_eq |].
  destruct example_ground as (-> & -> & ->).
  rewrite solve_eval. fold a1e. fold we. fold a2e. fold a3e.
  unfold wind_report. cbn [tas w headings].
  rewrite <- eval_negative. fold nwe.
  assert (T : 129.5 < mag (evalv (trig_values angles) a1e) < 130.5).
  { replace 129.5 with (IZR 259 / IZR 2) by lra.
    replace 130.5 with (IZR 261 / IZR 2) by lra.
    apply example_length; try lia; vm_compute; reflexivity. }
  assert (H1 : 199.65 < snd (toCompass (evalv (trig_values angles) a1e)) < 199.75).
  { apply example_heading with (b := third_quadrant 6) (b' := third_quadrant 8);
      try lra; try (vm_compute; reflexivity).
    - replace 199.65 with (180 + IZR 1965 / 100) by lra.
      apply bearing_vec_third.
    - replace 199.75 with (180 + IZR 1975 / 100) by lra.
      apply bearing_vec_third. }
  assert (H2 : 287.75 < snd (toCompass (evalv (trig_values angles) a2e)) < 287.85).
  { apply example_heading with (b := fourth_quadrant 10) (b' := fourth_quadrant 12);
      try lra; try (vm_compute; reflexivity).
    - replace 287.75 with (270 + IZR 1775 / 100) by lra.
      apply bearing_vec_fourth.
    - replace 287.85 with (270 + IZR 1785 / 100) by lra.
      apply bearing_vec_fourth. }
  assert (H3 : 11.65 < snd (toCompass (evalv (trig_values angles) a3e)) < 11.75).
  { apply example_heading with (b := first_quadrant 14) (b' := first_quadrant 16);
      try lra; try (vm_compute; reflexivity).
    - replace 11.65 with (IZR 1165 / 100) by lra.
      apply bearing_vec_first.
    - replace 11.75 with (IZR 1175 / 100) by lra.
      apply bearing_vec_first. }
  assert (W : 314.75 < snd (toCompass (evalv (trig_values angles) nwe)) < 314.85).
  { apply example_heading with (b := fourth_quadrant 18) (b' := fourth_quadrant 20);
      try lra; try (vm_compute; reflexivity).
    - replace 314.75 with (270 + IZR 4475 / 100) by lra.
      apply bearing_vec_fourth.
    - replace 314.85 with (270 + IZR 4485 / 100) by lra.
      apply bearing_vec_fourth. }
  assert (V : 20.55 < fst (toCompass (evalv (trig_values angles) nwe)) < 20.65).
  { rewrite fst_toCompass.
    replace 20.55 with (IZR 411 / IZR 20) by lra.
    replace 20.65 with (IZR 413 / IZR 20) by lra.
    apply example_length; try lia; vm_compute; reflexivity. }
  split; [lra |]. split.
  - do 3 eexists. split; [reflexivity |].
    repeat split; apply Rabs_def1; lra.
  - split; apply Rabs_def1; lra.
Qed.

(** ** C2 *)




(** ** C3 *)

(** C3, as stated, fails: on (140, 192) twice and (120, 20) [calculate]
    raises nothing; it returns, and its airspeed and wind are NaN. *)
Lemma identical_observations_return_nan :
  exists r,
    calculate (S := scalar glibc) [obs 140 192; obs 140 192; obs 120 20]
    = Returns r /\
    tas r = NaN /\ w r = (NaN, NaN).
Proof.
  eexists. split; [reflexivity |]. vm_compute. now split.
Qed.

(** C3, amended: when two of the three observations are identical,
    [calculate] raises no failure; whatever the C library computes, it
    returns a result whose true airspeed and wind components are NaN. *)
Theorem identical_observations_nan
    (L : Libm) (d1 d2 d3 : float64 * float64) :
  d1 = d2 \/ d1 = d3 \/ d2 = d3 ->
  exists r,
    calculate (S := scalar L) [d1; d2; d3] = Returns r /\
    tas r = NaN /\ w r = (NaN, NaN).
Proof.
  intros H. eexists. split; [reflexivity |].
  destruct H as [-> | [-> | ->]].
  - apply solve_same_12.
  - apply solve_same_13.
  - apply solve_same_23.
Qed.

Lemma identical_observations_nan_witness :
  exists r,
    calculate (S := scalar glibc) [obs 140 192; obs 140 192; obs 120 20]
    = Returns r /\
    tas r = NaN /\ w r = (NaN, NaN).
Proof.
  apply identical_observations_nan. left. reflexivity.
Defined.

(** ** C4 *)

(** C4, as stated, fails.  Three observations on track 0 at speeds 4, 2
    and 1 give two bisectors of equal slope: [calculate] raises nothing and
    returns an infinite airspeed.  On the tracks 0, 180, 0 of the claim's
    example (speeds 100, 120, 110) the two slopes differ in binary64,
    because [cos] of the rounded quarter turn is not 0: [calculate] returns
    the finite airspeed 1.7215848151493455e18. *)
Lemma parallel_bisectors_return_infinity :
  (exists r,
     calculate (S := scalar glibc) [obs 4 0; obs 2 0; obs 1 0] = Returns r /\
     slope (S := scalar glibc)
       (subtract (S := scalar glibc)
          (fromCompass (S := scalar glibc) (of_int 4) (of_int 0))
          (fromCompass (S := scalar glibc) (of_int 2) (of_int 0)))
     = slope (S := scalar glibc)
       (subtract (S := scalar glibc)
          (fromCompass (S := scalar glibc) (of_int 4) (of_int 0))
          (fromCompass (S := scalar glibc) (of_int 1) (of_int 0))) /\
     tas r = S754_infinity false) /\
  (exists r,
     calculate (S := scalar glibc) [obs 100 0; obs 120 180; obs 110 0]
     = Returns r /\
     tas r = Prim2SF 0x1.7e44c449daeebp+60%float).
Proof.
  split; eexists; (split; [reflexivity |]); vm_compute; repeat split.
Qed.

(** C4, amended: when the two bisector slopes the code computes are
    equal, [calculate] raises no failure; whatever the C library computes,
    it returns a result whose true airspeed is infinite or NaN. *)
Theorem equal_slopes_nonfinite
    (L : Libm) (d1 d2 d3 : float64 * float64) :
  let g1 := fromCompass (S := scalar L) (fst d1) (snd d1) in
  let g2 := fromCompass (S := scalar L) (fst d2) (snd d2) in
  let g3 := fromCompass (S := scalar L) (fst d3) (snd d3) in
  slope (S := scalar L) (subtract (S := scalar L) g1 g2) =
  slope (S := scalar L) (subtract (S := scalar L) g1 g3) ->
  exists r,
    calculate (S := scalar L) [d1; d2; d3] = Returns r /\
    nonfinite (tas r) = true.
Proof.
  intros g1 g2 g3 H. eexists. split; [reflexivity |].
  now apply solve_equal_slopes.
Qed.

Lemma equal_slopes_nonfinite_witness :
  exists r,
    calculate (S := scalar glibc) [obs 4 0; obs 2 0; obs 1 0] = Returns r /\
    nonfinite (tas r) = true.
Proof.
  apply (equal_slopes_nonfinite glibc (obs 4 0) (obs 2 0) (obs 1 0)).
  vm_compute. reflexivity.
Defined.

(** ** C5 *)




(** ** C6 *)




(** ** C7 *)



(** ** C8 *)




(** ** C9 *)




(** ** C10 *)



(** * Further properties of the notebook's functions *)

(** ** Unpacking the data *)


(** ** [polar] and [cartesian] *)






(** ** [fromCompass] after [toCompass] *)





(** ** Whole turns of a track *)




(** ** The wind is reported by where it comes from *)





(** ** The solution and the observations *)












(** *** Observations made of an airspeed, three headings and a wind *)









(** *** The wind triangle *)










(** ** Symmetries *)

(** *** The unit of speed *)














(** *** One more wind *)



(** *** Mirrored tracks *)











(** *** The order of the observations *)









(** ** Values that are not finite, in binary64 *)

Lemma sub_nonfinite_l (x y : float64) :
  nonfinite x = true -> nonfinite (SF64sub x y) = true.
Proof.
  destruct x as [|s| |]; try discriminate; destruct y as [|s'| |];
    try reflexivity; destruct s, s'; reflexivity.
Qed.

Lemma sub_nonfinite_r (x y : float64) :
  nonfinite y = true -> nonfinite (SF64sub x y) = true.
Proof.
  destruct y as [|s'| |]; try discriminate; destruct x as [|s| |];
    try reflexivity; destruct s, s'; reflexivity.
Qed.

Lemma opp_nonfinite (x : float64) :
  nonfinite x = true -> nonfinite (SFopp x) = true.
Proof. destruct x; try discriminate; reflexivity. Qed.

Lemma div_nonfinite_l (x y : float64) :
  nonfinite x = true -> nonfinite (SF64div x y) = true.
Proof. destruct x; try discriminate; destruct y; reflexivity. Qed.

(** The quotient of two operands that are infinite or NaN is NaN. *)
Lemma div_nonfinite (x y : float64) :
  nonfinite x = true -> nonfinite y = true -> SF64div x y = NaN.
Proof.
  destruct x; try discriminate; destruct y; try discriminate; reflexivity.
Qed.

Lemma nan_nonfinite (x : float64) : x = NaN -> nonfinite x = true.
Proof. now intros ->. Qed.

Section NonFiniteSlope.

Variable L : Libm.

Lemma intercept_nonfinite (p : float64 * float64) (mq : float64) :
  nonfinite mq = true -> nonfinite (intercept (S := scalar L) p mq) = true.
Proof.
  intros H. unfold intercept. cbn [scalar sub div mul lit].
  now apply div_nonfinite_l, sub_nonfinite_r, mul_nonfinite_l.
Qed.

(** A bisector slope that is infinite or NaN makes the center's [x] the
    quotient of two values that are infinite or NaN. *)
Lemma solve_nonfinite_slope (g1 g2 g3 : float64 * float64) :
  nonfinite (slope (S := scalar L) (subtract (S := scalar L) g1 g2)) = true \/
  nonfinite (slope (S := scalar L) (subtract (S := scalar L) g1 g3)) = true ->
  let r := solve (S := scalar L) g1 g2 g3 in
  tas r = NaN /\ w r = (NaN, NaN).
Proof.
  intros H. cbv zeta.
  unfold solve, circle_center, mag.
  set (p1 := subtract (S := scalar L) g1 g2) in *.
  set (p2 := subtract (S := scalar L) g1 g3) in *.
  set (mq1 := slope (S := scalar L) p1) in *.
  set (mq2 := slope (S := scalar L) p2) in *.
  assert (E : div (Scalar := scalar L)
                (sub (Scalar := scalar L)
                   (intercept (S := scalar L) p2 mq2)
                   (intercept (S := scalar L) p1 mq1))
                (sub (Scalar := scalar L) mq1 mq2) = NaN).
  { cbn [scalar sub div]. apply div_nonfinite.
    - destruct H as [H | H].
      + now apply sub_nonfinite_r, intercept_nonfinite.
      + now apply sub_nonfinite_l, intercept_nonfinite.
    - destruct H as [H | H].
      + now apply sub_nonfinite_l.
      + now apply sub_nonfinite_r. }
  rewrite E. clearbody mq1 mq2 p1 p2. destruct g1 as [x1 y1].
  unfold subtract.
  cbn [fst snd tas w scalar sub div mul add neg pow2 np_sqrt lit].
  autorewrite with nan_db. now split.
Qed.

Lemma slope_nonfinite_chord (p : float64 * float64) :
  nonfinite (fst p) = true -> nonfinite (snd p) = true ->
  nonfinite (slope (S := scalar L) p) = true.
Proof.
  intros Hx Hy. unfold slope. cbn [scalar div neg].
  apply nan_nonfinite, div_nonfinite; [now apply opp_nonfinite | exact Hy].
Qed.

Lemma solve_lost_ground (g1 g2 g3 : float64 * float64) :
  lost g1 \/ lost g2 \/ lost g3 ->
  let r := solve (S := scalar L) g1 g2 g3 in
  tas r = NaN /\ w r = (NaN, NaN).
Proof.
  intros H. apply solve_nonfinite_slope.
  destruct g1 as [x1 y1], g2 as [x2 y2], g3 as [x3 y3].
  unfold lost in H. cbn [fst snd] in H.
  destruct H as [[Hx Hy] | [[Hx Hy] | [Hx Hy]]].
  - left. apply slope_nonfinite_chord; cbn; now apply sub_nonfinite_l.
  - left. apply slope_nonfinite_chord; cbn; now apply sub_nonfinite_r.
  - right. apply slope_nonfinite_chord; cbn; now apply sub_nonfinite_r.
Qed.

Lemma fromCompass_nonfinite_speed (s t : float64) :
  nonfinite s = true -> lost (fromCompass (S := scalar L) s t).
Proof.
  intros H. unfold fromCompass, cartesian, lost. cbn [fst snd scalar mul].
  split; now apply mul_nonfinite_l.
Qed.

Lemma fromCompass_nonfinite_track (s t : float64) :
  nan_outside_domain L -> nonfinite t = true ->
  lost (fromCompass (S := scalar L) s t).
Proof.
  intros HL H. unfold fromCompass, cartesian, lost.
  cbn [fst snd scalar mul sub lit np_radians np_cos np_sin].
  destruct (HL (SF64mul (SF64sub (of_int 90) t) DEG2RAD)) as [-> ->].
  - now apply mul_nonfinite_l, sub_nonfinite_r.
  - split; now apply mul_nonfinite_r.
Qed.

End NonFiniteSlope.

Lemma glibc_nan_outside_domain : nan_outside_domain glibc.
Proof.
  intros x H. destruct x as [|s| |]; try discriminate.
  - destruct s; split; vm_compute; reflexivity.
  - split; vm_compute; reflexivity.
Qed.

(** X16: in binary64, whatever the C library computes, when the [y]
    component of the chord g1 - g2 or of the chord g1 - g3 is a zero
    (the chord is horizontal, or the two observations are the same),
    [calculate] raises nothing and returns a result whose true airspeed
    and wind components are NaN. *)
Theorem horizontal_chord_always_nan
    (L : Libm) (d1 d2 d3 : float64 * float64) :
  let g1 := fromCompass (S := scalar L) (fst d1) (snd d1) in
  let g2 := fromCompass (S := scalar L) (fst d2) (snd d2) in
  let g3 := fromCompass (S := scalar L) (fst d3) (snd d3) in
  is_zero (snd (subtract (S := scalar L) g1 g2)) = true \/
  is_zero (snd (subtract (S := scalar L) g1 g3)) = true ->
  exists r,
    calculate (S := scalar L) [d1; d2; d3] = Returns r /\
    tas r = NaN /\ w r = (NaN, NaN).
Proof.
  intros g1 g2 g3 H. eexists. split; [reflexivity |].
  apply solve_nonfinite_slope. fold g1 g2 g3.
  destruct H as [H | H]; [left | right].
  all: unfold slope; cbn [scalar div neg].
  all: apply div_by_zero_nonfinite; now left.
Qed.

Lemma horizontal_chord_always_nan_witness :
  exists r,
    calculate (S := scalar glibc) [obs 2 90; obs 1 90; obs 1 0] = Returns r /\
    tas r = NaN /\ w r = (NaN, NaN).
Proof.
  apply (horizontal_chord_always_nan glibc (obs 2 90) (obs 1 90) (obs 1 0)).
  left. vm_compute. reflexivity.
Defined.

(** X17: in binary64, whatever the C library computes, when the speed of
    one of the three observations is infinite or NaN, [calculate] raises
    nothing and returns a result whose true airspeed and wind components
    are NaN. *)
Theorem nonfinite_speed_gives_nan
    (L : Libm) (d1 d2 d3 : float64 * float64) :
  nonfinite (fst d1) = true \/ nonfinite (fst d2) = true \/
  nonfinite (fst d3) = true ->
  exists r,
    calculate (S := scalar L) [d1; d2; d3] = Returns r /\
    tas r = NaN /\ w r = (NaN, NaN).
Proof.
  intros H. eexists. split; [reflexivity |].
  apply solve_lost_ground.
  destruct H as [H | [H | H]]; [left | right; left | right; right].
  all: now apply fromCompass_nonfinite_speed.
Qed.

Lemma nonfinite_speed_gives_nan_witness :
  exists r,
    calculate (S := scalar glibc)
      [obs 140 192; (S754_infinity false, of_int 283); obs 120 20]
    = Returns r /\
    tas r = NaN /\ w r = (NaN, NaN).
Proof.
  apply nonfinite_speed_gives_nan. right. left. reflexivity.
Defined.

(** X18: in binary64, with a C library whose [cos] and [sin] return NaN
    for an infinite or NaN argument, as C's Annex F requires, when the
    track of one of the three observations is infinite or NaN,
    [calculate] raises nothing and returns a result whose true airspeed
    and wind components are NaN. *)
Theorem nonfinite_track_gives_nan
    (L : Libm) (d1 d2 d3 : float64 * float64) :
  nan_outside_domain L ->
  nonfinite (snd d1) = true \/ nonfinite (snd d2) = true \/
  nonfinite (snd d3) = true ->
  exists r,
    calculate (S := scalar L) [d1; d2; d3] = Returns r /\
    tas r = NaN /\ w r = (NaN, NaN).
Proof.
  intros HL H. eexists. split; [reflexivity |].
  apply solve_lost_ground.
  destruct H as [H | [H | H]]; [left | right; left | right; right].
  all: now apply fromCompass_nonfinite_track.
Qed.

Lemma nonfinite_track_gives_nan_witness :
  exists r,
    calculate (S := scalar glibc)
      [obs 140 192; obs 112 283; (of_int 120, NaN)]
    = Returns r /\
    tas r = NaN /\ w r = (NaN, NaN).
Proof.
  apply nonfinite_track_gives_nan.
  - exact glibc_nan_outside_domain.
  - right. right. reflexivity.
Defined.
